(** * The rustor plugin protocol: the echo plugin and the edit merger

    The first half embeds [examples/plugins/echo-plugin/plugin.py]: the
    Python values that [json.load] produces, the built-ins the plugin calls
    (with the exceptions they raise on values of the wrong type), and [main]
    in a small exception-and-output monad.  The second half models the edit
    merger of the host, which the plugin's edits are meant for. *)

From Stdlib Require Import ZArith List Lia String Ascii.
From stdpp Require Import gmap strings list fin_maps sorting.
From Equations Require Import Equations.

Local Open Scope Z_scope.

(** ** Python strings and values *)

Module Py.

(** A Python [str] is a sequence of Unicode code points; [len] and indexing
    count code points, not bytes. *)
Definition codepoint := N.
Abbreviation str := (list codepoint).

(** A literal of the source, from its ASCII spelling. *)
Definition lit (s : string) : str := N_of_ascii <$> list_ascii_of_string s.

Definition LF : codepoint := 10%N.
Definition TAB : codepoint := 9%N.
Definition SPACE : codepoint := 32%N.
Definition SLASH : codepoint := 47%N.

(** What [json.load] can return, and what [json.dump] is given.  A float is
    carried as its bit pattern: the plugin never computes with one.  A dict
    is a finite map: the plugin only looks keys up and builds literals. *)
#[warnings="-register-all"]
Inductive value :=
| VNone
| VBool (b : bool)
| VInt (n : Z)
| VFloat (bits : N)
| VStr (s : str)
| VList (l : list value)
| VDict (d : gmap str value).

Inductive exn :=
| JSONDecodeError
| AttributeError
| TypeError
| IndexError.

Inductive result (A : Type) :=
| Ok (a : A)
| Raise (e : exn).
Arguments Ok {A} a.
Arguments Raise {A} e.

(** [len(s)] *)
Definition len {A} (s : list A) : Z := Z.of_nat (length s).

(** [s.startswith(prefix)] on two strings. *)
Fixpoint str_startswith (s prefix : str) {struct prefix} : bool :=
  match prefix, s with
  | [], _ => true
  | _ :: _, [] => false
  | p :: prefix', c :: s' => if decide (c = p) then str_startswith s' prefix' else false
  end.

(** [needle in hay] on two strings: substring search. *)
Fixpoint str_in (needle hay : str) : bool :=
  str_startswith hay needle ||
  match hay with
  | [] => false
  | _ :: hay' => str_in needle hay'
  end.

(** [seq[i]]: a negative index counts from the end, an index out of range
    raises [IndexError]. *)
Definition seq_getitem {A} (l : list A) (i : Z) : result A :=
  let j := if decide (i < 0) then i + len l else i in
  if decide (0 ≤ j < len l) then
    match l !! Z.to_nat j with
    | Some x => Ok x
    | None => Raise IndexError
    end
  else Raise IndexError.

(** [s[i]] on a string is the string of that one code point. *)
Definition str_getitem (s : str) (i : Z) : result str :=
  match seq_getitem s i with
  | Ok c => Ok [c]
  | Raise e => Raise e
  end.

(** [s.split(sep)] for a separator of one code point, which is how the
    plugin calls it: the pieces between the separators, of which there is
    always at least one. *)
Fixpoint str_split (s : str) (sep : codepoint) : list str :=
  match s with
  | [] => [[]]
  | c :: s' =>
      if decide (c = sep) then [] :: str_split s' sep
      else match str_split s' sep with
           | w :: ws => (c :: w) :: ws
           | [] => [[c]]
           end
  end.

(** The plugin process: a computation either returns or raises, and in
    both cases leaves behind the documents it has written to [sys.stdout]
    with [json.dump], oldest first. *)
Definition M (A : Type) : Type := list value → result A * list value.

Definition ret {A} (a : A) : M A := λ out, (Ok a, out).
Definition bind {A B} (m : M A) (f : A → M B) : M B := λ out,
  match m out with
  | (Ok a, out') => f a out'
  | (Raise e, out') => (Raise e, out')
  end.

Notation "'let!' x ':=' m 'in' k" := (bind m (λ x, k))
  (at level 10, x name, m at level 100, k at level 200, only parsing).

Definition raise {A} (e : exn) : M A := λ out, (Raise e, out).
Definition lift {A} (r : result A) : M A := λ out, (r, out).

(** What [sys.stdin] holds: text that is no JSON document, or a document,
    given as the value [json.load] builds from it. *)
Inductive stdin :=
| NotJSON
| Document (v : value).

(** [json.load(sys.stdin)] *)
Definition json_load (input : stdin) : M value :=
  match input with
  | NotJSON => raise JSONDecodeError
  | Document v => ret v
  end.

(** [json.dump(v, sys.stdout)] *)
Definition json_dump (v : value) : M unit := λ out, (Ok (), out ++ [v]).

(** [o.get(key, default)]: a method of dicts only. *)
Definition py_get (o : value) (key : str) (default : value) : M value :=
  match o with
  | VDict d => ret (from_option id default (d !! key))
  | _ => raise AttributeError
  end.

(** [o.startswith(prefix)]: a method of strings only. *)
Definition py_startswith (o : value) (prefix : str) : M bool :=
  match o with
  | VStr s => ret (str_startswith s prefix)
  | _ => raise AttributeError
  end.

(** [o.split(sep)]: a method of strings only. *)
Definition py_split (o : value) (sep : codepoint) : M (list str) :=
  match o with
  | VStr s => ret (str_split s sep)
  | _ => raise AttributeError
  end.

End Py.

(** ** The echo plugin *)

Module Plugin.
Import Py.

(** The two prefixes [main] tests for: ['<?php'] and ['<?php\n/**']. *)
Definition php_open : str := lit "<?php".
Definition php_docblock : str := lit "<?php" ++ [LF] ++ lit "/**".

(** [' \t'] *)
Definition blanks : str := [SPACE; TAB].

(** The loop
    [while pos < len(source) and source[pos] in ' \t': pos += 1],
    returning the final [pos].  [and] evaluates [source[pos]] only when
    [pos < len(source)]. *)
Equations? advance (source : str) (pos : Z) : result Z
  by wf (Z.to_nat (len source - pos)) lt :=
  advance source pos with decide (pos < len source) => {
    | right _ => Ok pos
    | left _ with str_getitem source pos => {
        | Raise e => Raise e
        | Ok c with str_in c blanks => {
            | true => advance source (pos + 1)
            | false => Ok pos } } }.
Proof. lia. Qed.

(** The loop on the value [main] holds: it is reached only after
    [source.startswith] has returned, hence with a string. *)
Definition py_advance (source : value) (pos : Z) : M Z :=
  match source with
  | VStr s => lift (advance s pos)
  | _ => raise TypeError
  end.

(** ["\n/**\n * @file " + name + "\n */"], with [name] for
    [file_path.split('/')[-1]]. *)
Definition docblock (name : str) : str :=
  ([LF] ++ lit "/**" ++ [LF] ++ lit " * @file ") ++ name ++ ([LF] ++ lit " */").

Definition main (input : stdin) : M unit :=
  let! input_data := json_load input in
  let! source := py_get input_data (lit "source") (VStr []) in
  let! file_path := py_get input_data (lit "file") (VStr []) in
  let edits : list value := [] in
  let! is_php := py_startswith source php_open in
  let! wanted := (if is_php then
                    let! has_docblock := py_startswith source php_docblock in
                    ret (negb has_docblock)
                  else ret false) in
  let! edits :=
    (if wanted then
       let! pos := py_advance source 5 in
       let! parts := py_split file_path SLASH in
       let! name := lift (seq_getitem parts (-1)) in
       let comment := docblock name in
       ret (edits ++ [VDict {[ lit "start" := VInt pos;
                               lit "end" := VInt pos;
                               lit "replacement" := VStr comment;
                               lit "message" := VStr (lit "Add file docblock comment") ]}])
     else ret edits) in
  let output := VDict {[ lit "edits" := VList edits ]} in
  json_dump output.

(** One run of the process: how [main] ends and what it has written. *)
Definition run (input : stdin) : result unit * list value := main input [].

(** *** What a run is observed by *)

(** The dict [main] appends to [edits], and the document it writes. *)
Definition edit (pos : Z) (comment : str) : value :=
  VDict {[ lit "start" := VInt pos;
           lit "end" := VInt pos;
           lit "replacement" := VStr comment;
           lit "message" := VStr (lit "Add file docblock comment") ]}.
Definition response (edits : list value) : value :=
  VDict {[ lit "edits" := VList edits ]}.

(** The edits of a response document, and the edits a run has written. *)
Definition response_edits (doc : value) : list value :=
  match doc with
  | VDict d => match d !! lit "edits" with Some (VList l) => l | _ => [] end
  | _ => []
  end.
Definition emitted (input : stdin) : list value :=
  (run input).2 ≫= response_edits.

(** The fields of an edit, read with the type the wire protocol gives them. *)
Definition int_field (key : str) (e : value) : option Z :=
  match e with
  | VDict m => match m !! key with Some (VInt n) => Some n | _ => None end
  | _ => None
  end.
Definition str_field (key : str) (e : value) : option str :=
  match e with
  | VDict m => match m !! key with Some (VStr s) => Some s | _ => None end
  | _ => None
  end.
Definition edit_start : value → option Z := int_field (lit "start").
Definition edit_end : value → option Z := int_field (lit "end").
Definition edit_replacement : value → option str := str_field (lit "replacement").
Definition edit_message : value → option str := str_field (lit "message").

(** An entry of the response schema: an object with exactly the fields
    [start] and [end] (integers), [replacement] and [message] (strings). *)
Definition edit_schema (e : value) : Prop :=
  match e with
  | VDict m =>
      dom m = {[ lit "start"; lit "end"; lit "replacement"; lit "message" ]}
      ∧ is_Some (edit_start e) ∧ is_Some (edit_end e)
      ∧ is_Some (edit_replacement e) ∧ is_Some (edit_message e)
  | _ => False
  end.

(** The invariant of an Edit against a source of [n] code points. *)
Definition edit_invariant (n start end_ : Z) : Prop := 0 ≤ start ≤ end_ ∧ end_ ≤ n.

(** What [main] reads from a request object: [input_data.get(key, '')]. *)
Definition source_of (d : gmap str value) : value :=
  from_option id (VStr []) (d !! lit "source").
Definition file_of (d : gmap str value) : value :=
  from_option id (VStr []) (d !! lit "file").

(** The condition of the [if] on a string. *)
Definition needs_docblock (s : str) : bool :=
  str_startswith s php_open && negb (str_startswith s php_docblock).

(** The length of the maximal run of spaces and tabs a string begins with,
    and the offset that run ends at when it begins at index 5. *)
Definition is_blank (c : codepoint) : bool := bool_decide (c = SPACE ∨ c = TAB).
Fixpoint blank_run (s : str) : nat :=
  match s with
  | c :: s' => if is_blank c then S (blank_run s') else 0%nat
  | [] => 0%nat
  end.
Definition insertion_point (s : str) : Z :=
  5 + Z.of_nat (blank_run (drop 5 s)).

(** [file_path.split('/')[-1]] on a string: its last piece. *)
Definition file_name (f : str) : str := default [] (last (str_split f SLASH)).

(** The request [{"source": source, "file": file}], and one whose [file] is
    JSON [null]. *)
Definition request (source file : str) : gmap str value :=
  {[ lit "source" := VStr source; lit "file" := VStr file ]}.
Definition request_null_file : gmap str value :=
  {[ lit "source" := VStr (lit "<?php"); lit "file" := VNone ]}.

(** Closes [e ∈ emitted input] on a concrete input by running it. *)
Ltac run_emits := apply list_elem_of_singleton; vm_compute; reflexivity.

(** ['*'] *)
Definition STAR : codepoint := 42%N.

(** The source once an edit with [start == end == p] is applied to it:
    [source[:p] + replacement + source[p:]]. *)
Definition insert_at (s : str) (p : Z) (r : str) : str :=
  take (Z.to_nat p) s ++ r ++ drop (Z.to_nat p) s.

End Plugin.

(** ** The edit merger *)

Module Merger.
Import Py.

(** Modelled from the spec: the Edit value type of the data model, a
    half-open range of code-point offsets into the original source, the
    text to put in its place, and a message that plays no part in the
    text.  The host's implementation is not part of the sources embedded
    here; the field [end] is spelled [end_]. *)
Record Edit := {
  start : Z;
  end_ : Z;
  replacement : str;
  message : str
}.

(** Modelled from the spec: the AggregatedEdit of the data model, an Edit
    plus the identifier of the plugin that produced it. *)
Record AggregatedEdit := {
  edit : Edit;
  origin : str
}.

(** Modelled from the spec: the error taxonomy of sections 4.1 and 7, as
    far as it concerns a single Edit. *)
Inductive InvalidKind :=
| OffsetOutOfRange
| InvertedRange.

Inductive Reason :=
| InvalidEditError (kind : InvalidKind)
| OverlapError.

Inductive Validation :=
| Accepted
| Rejected (kind : InvalidKind).

#[global] Instance InvalidKind_eq_dec : EqDecision InvalidKind.
Proof. solve_decision. Defined.
#[global] Instance Validation_eq_dec : EqDecision Validation.
Proof. solve_decision. Defined.

(** Modelled from the spec: the validation of section 4.1, which accepts
    an Edit exactly when [0 <= start <= end <= length(source)].  The spec
    names two kinds of failure and not which one an Edit that is both
    inverted and out of range gets; the ordering is tested first here. *)
Definition validate (source : str) (e : Edit) : Validation :=
  if decide (end_ e < start e) then Rejected InvertedRange
  else if decide (0 ≤ start e ∧ end_ e ≤ len source) then Accepted
  else Rejected OffsetOutOfRange.

(** Modelled from the spec: the report of section 4.4, step 5. *)
Record Report := {
  applied : list AggregatedEdit;
  rejected : list (AggregatedEdit * Reason)
}.

Definition record_applied (a : AggregatedEdit) (r : Report) : Report :=
  {| applied := applied r ++ [a]; rejected := rejected r |}.
Definition record_rejected (a : AggregatedEdit) (why : Reason) (r : Report) : Report :=
  {| applied := applied r; rejected := rejected r ++ [(a, why)] |}.

(** Modelled from the spec: step 1 of section 4.4.  The Edits that pass
    validation, and the others with their reasons, both in the order of the
    aggregated sequence. *)
Definition valid_edits (source : str) (l : list AggregatedEdit) : list AggregatedEdit :=
  filter (λ a, validate source (edit a) = Accepted) l.
Definition invalid_edits (source : str) (l : list AggregatedEdit)
  : list (AggregatedEdit * Reason) :=
  omap (λ a, match validate source (edit a) with
             | Accepted => None
             | Rejected kind => Some (a, InvalidEditError kind)
             end) l.

(** Modelled from the spec: step 2 of section 4.4, a stable sort by
    [start] ascending, as an insertion sort that puts an Edit before the
    Edits of the same [start] that followed it in the sequence. *)
Fixpoint insert_by_start (a : AggregatedEdit) (l : list AggregatedEdit)
  : list AggregatedEdit :=
  match l with
  | [] => [a]
  | b :: l' =>
      if decide (start (edit a) ≤ start (edit b)) then a :: b :: l'
      else b :: insert_by_start a l'
  end.
Definition sort_by_start (l : list AggregatedEdit) : list AggregatedEdit :=
  foldr insert_by_start [] l.

(** [source[a:b]] and [source[a:]] for offsets within the source. *)
Definition slice (source : str) (a b : Z) : str :=
  take (Z.to_nat (b - a)) (drop (Z.to_nat a) source).
Definition slice_from (source : str) (a : Z) : str :=
  drop (Z.to_nat a) source.

(** Modelled from the spec: the walk of section 4.4, step 3, over the
    sorted Edits still to visit, with the rightmost consumed offset
    [cursor], the output buffer and the report so far. *)
Record State := {
  pending : list AggregatedEdit;
  cursor : Z;
  buffer : str;
  report : Report
}.

Definition initial (sorted : list AggregatedEdit)
    (invalid : list (AggregatedEdit * Reason)) : State :=
  {| pending := sorted; cursor := 0; buffer := [];
     report := {| applied := []; rejected := invalid |} |}.

Inductive step (source : str) : State → State → Prop :=
| step_reject a rest cur buf rep :
    start (edit a) < cur →
    step source
      {| pending := a :: rest; cursor := cur; buffer := buf; report := rep |}
      {| pending := rest; cursor := cur; buffer := buf;
         report := record_rejected a OverlapError rep |}
| step_accept a rest cur buf rep :
    cur ≤ start (edit a) →
    step source
      {| pending := a :: rest; cursor := cur; buffer := buf; report := rep |}
      {| pending := rest; cursor := end_ (edit a);
         buffer := buf ++ slice source cur (start (edit a)) ++ replacement (edit a);
         report := record_applied a rep |}.

(** The same walk as a function, run until no Edit is pending. *)
Fixpoint walk (source : str) (todo : list AggregatedEdit) (cur : Z) (buf : str)
    (rep : Report) : State :=
  match todo with
  | [] => {| pending := []; cursor := cur; buffer := buf; report := rep |}
  | a :: rest =>
      if decide (start (edit a) < cur) then
        walk source rest cur buf (record_rejected a OverlapError rep)
      else
        walk source rest (end_ (edit a))
          (buf ++ slice source cur (start (edit a)) ++ replacement (edit a))
          (record_applied a rep)
  end.

(** Modelled from the spec: steps 4 and 5, the final text and the report
    of a walk that has no Edit left. *)
Definition result_of (source : str) (st : State) : str * Report :=
  (buffer st ++ slice_from source (cursor st), report st).

(** Modelled from the spec: the Edit Merger of section 4.4, steps 1 to 5. *)
Definition merge (source : str) (edits : list AggregatedEdit) : str * Report :=
  let sorted := sort_by_start (valid_edits source edits) in
  let st := initial sorted (invalid_edits source edits) in
  result_of source (walk source (pending st) (cursor st) (buffer st) (report st)).

(** Modelled from the spec: what step 2 asks of the sorted sequence, in the
    spec's words: ascending by [start], and among the Edits of one [start]
    the order of the aggregated sequence. *)
Definition by_start (a b : AggregatedEdit) : Prop := start (edit a) ≤ start (edit b).
#[global] Instance by_start_trans : Transitive by_start.
Proof. unfold by_start. intros a b c. lia. Qed.
Definition stable_sorted (l sorted : list AggregatedEdit) : Prop :=
  Sorted by_start sorted
  ∧ ∀ k, filter (λ a, start (edit a) = k) sorted = filter (λ a, start (edit a) = k) l.

(** Modelled from the spec: a run of the Merger, by the algorithm's five
    steps: any sequence step 2 allows, then the walk, step by step, until
    nothing is pending. *)
Definition merger_run (source : str) (edits : list AggregatedEdit)
    (res : str * Report) : Prop :=
  ∃ sorted final,
    stable_sorted (valid_edits source edits) sorted
    ∧ rtc (step source) (initial sorted (invalid_edits source edits)) final
    ∧ pending final = []
    ∧ res = result_of source final.


(** An AggregatedEdit from its five components. *)
Definition aggregated (s e : Z) (r m o : str) : AggregatedEdit :=
  {| edit := {| start := s; end_ := e; replacement := r; message := m |};
     origin := o |}.

(** A valid Edit that is a pure insertion. *)
Definition pure_insertion (source : str) (a : AggregatedEdit) : Prop :=
  validate source (edit a) = Accepted ∧ start (edit a) = end_ (edit a).

End Merger.

(** * Facts about the built-ins *)

Module PyFacts.
Import Py.

(** The built-ins on small inputs, as Python evaluates them. *)
Example startswith_longer_prefix : str_startswith (lit "<?p") (lit "<?php") = false.
Proof. reflexivity. Qed.
Example in_empty_needle : str_in [] (lit "ab") = true.
Proof. reflexivity. Qed.
Example getitem_negative : seq_getitem [10; 20; 30] (-1) = Ok 30.
Proof. reflexivity. Qed.
Example getitem_past_end : seq_getitem [10; 20; 30] 3 = Raise IndexError.
Proof. reflexivity. Qed.
Example getitem_before_start : seq_getitem [10; 20; 30] (-4) = Raise IndexError.
Proof. reflexivity. Qed.
Example split_path :
  str_split (lit "src/lib//a.php") SLASH = [lit "src"; lit "lib"; []; lit "a.php"].
Proof. reflexivity. Qed.
Example split_trailing_slash : str_split (lit "src/") SLASH = [lit "src"; []].
Proof. reflexivity. Qed.
Example split_empty : str_split [] SLASH = [[]].
Proof. reflexivity. Qed.

Lemma len_nonneg {A} (l : list A) : 0 ≤ len l.
Proof. unfold len; lia. Qed.

Lemma str_startswith_app (s p : str) :
  str_startswith s p = true ↔ ∃ t, s = p ++ t.
Proof.
  revert s; induction p as [|c p IH]; intros s; simpl.
  - split; [by exists s|done].
  - destruct s as [|c' s]; [split; [done|intros [t Ht]; done]|].
    case_decide; subst.
    + rewrite IH. split; intros [t Ht]; exists t; by simplify_eq/=.
    + split; [done|]. intros [t Ht]. by simplify_eq/=.
Qed.

(** Indexing within range returns the element at that position. *)
Lemma seq_getitem_lookup {A} (l : list A) (i : Z) :
  0 ≤ i < len l → ∃ x, l !! Z.to_nat i = Some x ∧ seq_getitem l i = Ok x.
Proof.
  intros Hi. unfold seq_getitem, len in *.
  destruct (decide (i < 0)) as [|_]; [lia|].
  rewrite decide_True by done.
  destruct (lookup_lt_is_Some_2 l (Z.to_nat i)) as [x Hx]; [lia|].
  exists x. by rewrite Hx.
Qed.

(** [l[-1]] is the last element. *)
Lemma seq_getitem_last {A} (l : list A) (x : A) :
  last l = Some x → seq_getitem l (-1) = Ok x.
Proof.
  intros [l' ->]%last_Some. unfold seq_getitem, len.
  rewrite length_app. cbn [length].
  destruct (decide (-1 < 0)) as [_|]; [|lia].
  destruct (decide _) as [_|]; [|lia].
  replace (Z.to_nat (-1 + Z.of_nat (length l' + 1))) with (length l') by lia.
  by rewrite list_lookup_middle.
Qed.

Lemma str_getitem_drop (s : str) (pos : Z) (c : str) :
  0 ≤ pos < len s → str_getitem s pos = Ok c →
  ∃ x, c = [x] ∧ drop (Z.to_nat pos) s = x :: drop (Z.to_nat (pos + 1)) s.
Proof.
  intros Hpos Hc. destruct (seq_getitem_lookup s pos Hpos) as (x & Hx & Hget).
  unfold str_getitem in Hc. rewrite Hget in Hc. simplify_eq/=.
  exists x. split; [done|].
  replace (Z.to_nat (pos + 1)) with (S (Z.to_nat pos)) by lia.
  by apply drop_S.
Qed.

(** The last piece of a split holds no separator, and is the whole string
    or what follows its last separator. *)
Lemma str_split_last (s : str) (sep : codepoint) :
  ∃ ws w, str_split s sep = ws ++ [w] ∧ (sep ∉ w) ∧
          ((ws = [] ∧ s = w) ∨ (ws ≠ [] ∧ ∃ d, s = d ++ sep :: w)).
Proof.
  induction s as [|c s IH]; simpl.
  - exists [], []. split; [done|]. split; [apply not_elem_of_nil|by left].
  - destruct IH as (ws & w & -> & Hw & Hs). case_decide as Hc.
    + subst c. exists ([] :: ws), w. split; [done|]. split; [done|].
      right. split; [done|]. destruct Hs as [[_ ->]|[_ [d ->]]].
      * by exists [].
      * by exists (sep :: d).
    + destruct ws as [|w0 ws]; simpl.
      * exists [], (c :: w). split; [done|].
        destruct Hs as [[_ ->]|[? _]]; [|done].
        split; [|by left]. rewrite not_elem_of_cons. by split; [congruence|].
      * exists ((c :: w0) :: ws), w. split; [done|]. split; [done|].
        right. split; [done|]. destruct Hs as [[? _]|[_ [d ->]]]; [done|].
        by exists (c :: d).
Qed.

End PyFacts.

(** * The echo plugin: what a run writes *)

Module PluginFacts.
Import Py Plugin PyFacts.

(** ** The loop *)

Lemma is_blank_true c : is_blank c = true ↔ c = SPACE ∨ c = TAB.
Proof. unfold is_blank. by rewrite bool_decide_eq_true. Qed.

Lemma is_blank_false c : is_blank c = false ↔ c ≠ SPACE ∧ c ≠ TAB.
Proof. unfold is_blank. rewrite bool_decide_eq_false. tauto. Qed.

(** [c in ' \t'] for a string of one code point. *)
Lemma str_in_blanks (c : codepoint) : str_in [c] blanks = is_blank c.
Proof.
  unfold is_blank, blanks; simpl.
  destruct (decide (SPACE = c)) as [<-|Hs]; [done|].
  destruct (decide (TAB = c)) as [<-|Ht]; [done|].
  simpl. symmetry. apply bool_decide_eq_false. by intros [->| ->].
Qed.

Lemma blank_run_le (l : str) : (blank_run l ≤ length l)%nat.
Proof. induction l as [|c l IH]; simpl; [lia|]. destruct (is_blank c); lia. Qed.

Lemma blank_run_lookup (l : str) (i : nat) :
  (i < blank_run l)%nat → ∃ c, l !! i = Some c ∧ is_blank c = true.
Proof.
  revert i; induction l as [|c l IH]; intros i; simpl; [lia|].
  destruct (is_blank c) eqn:Hc; [|lia]. destruct i as [|i]; simpl.
  - eauto.
  - intros Hi. apply IH. lia.
Qed.

Lemma blank_run_stop (l : str) :
  blank_run l = length l ∨ ∃ c, l !! blank_run l = Some c ∧ is_blank c = false.
Proof.
  induction l as [|c l IH]; simpl; [by left|].
  destruct (is_blank c) eqn:Hc; simpl; [|eauto].
  destruct IH as [->|IH]; eauto.
Qed.

(** From any position within the source the loop returns, without raising,
    the position advanced by the blanks found there. *)
Lemma advance_blank_run (s : str) (pos : Z) :
  0 ≤ pos ≤ len s →
  advance s pos = Ok (pos + Z.of_nat (blank_run (drop (Z.to_nat pos) s))).
Proof.
  funelim (advance s pos); intros Hpos.
  - rewrite drop_ge by (unfold len in *; lia). simpl. f_equal; lia.
  - destruct (seq_getitem_lookup source pos) as (x & _ & Hx); [lia|].
    unfold str_getitem in *. by rewrite Hx in *.
  - destruct (str_getitem_drop source pos c) as (x & -> & ->); [lia|done|].
    rewrite str_in_blanks in Heq. simpl. rewrite Heq.
    rewrite H by lia. f_equal. lia.
  - destruct (str_getitem_drop source pos c) as (x & -> & ->); [lia|done|].
    rewrite str_in_blanks in Heq. simpl. rewrite Heq. f_equal. lia.
Qed.

Lemma advance_within (s : str) (pos : Z) :
  0 ≤ pos ≤ len s → ∃ p, advance s pos = Ok p ∧ pos ≤ p ≤ len s.
Proof.
  intros Hpos. rewrite advance_blank_run by done. eexists; split; [done|].
  pose proof (blank_run_le (drop (Z.to_nat pos) s)) as Hle.
  rewrite length_drop in Hle. unfold len in *. lia.
Qed.

Lemma needs_docblock_len (s : str) : needs_docblock s = true → 5 ≤ len s.
Proof.
  unfold needs_docblock. intros [Hopen _]%andb_true_iff.
  apply str_startswith_app in Hopen as [t ->].
  unfold len. rewrite length_app. simpl. lia.
Qed.

Lemma insertion_point_bounds (s : str) :
  5 ≤ len s → 5 ≤ insertion_point s ≤ len s.
Proof.
  intros Hs. unfold insertion_point, len in *.
  pose proof (blank_run_le (drop 5 s)) as Hle. rewrite length_drop in Hle. lia.
Qed.

(** ** The file name *)

Lemma seq_getitem_split (f : str) :
  seq_getitem (str_split f SLASH) (-1) = Ok (file_name f).
Proof.
  destruct (str_split_last f SLASH) as (ws & w & Hsplit & _).
  apply seq_getitem_last. unfold file_name. rewrite Hsplit.
  by rewrite last_snoc.
Qed.

Lemma file_name_spec (f : str) :
  (SLASH ∉ file_name f) ∧ (f = file_name f ∨ ∃ dir, f = dir ++ SLASH :: file_name f).
Proof.
  destruct (str_split_last f SLASH) as (ws & w & Hsplit & Hw & Hf).
  unfold file_name. rewrite Hsplit, last_snoc. simpl.
  split; [done|]. destruct Hf as [[_ ->]|[_ [dir ->]]]; eauto.
Qed.

(** ** The fields of the edit [main] builds *)

Lemma edit_start_edit p c : edit_start (edit p c) = Some p.
Proof. reflexivity. Qed.
Lemma edit_end_edit p c : edit_end (edit p c) = Some p.
Proof. reflexivity. Qed.
Lemma edit_replacement_edit p c : edit_replacement (edit p c) = Some c.
Proof. reflexivity. Qed.
Lemma edit_message_edit p c :
  edit_message (edit p c) = Some (lit "Add file docblock comment").
Proof. reflexivity. Qed.

Create Rewrite HintDb edit_fields.
#[local] Hint Rewrite edit_start_edit edit_end_edit edit_replacement_edit
  edit_message_edit : edit_fields.

Lemma edit_schema_edit p c : edit_schema (edit p c).
Proof.
  split; [by vm_compute|]. autorewrite with edit_fields. eauto.
Qed.

(** ** Every run, case by case *)

#[local] Arguments str_startswith : simpl never.
#[local] Arguments lit : simpl never.
#[local] Arguments docblock : simpl never.

(** A request object: [main] raises unless [source] is a string, writes an
    empty list when the source asks for no docblock, and otherwise needs
    [file] to be a string too. *)
Lemma run_dict (d : gmap str value) :
  run (Document (VDict d)) =
  match source_of d with
  | VStr s =>
      if needs_docblock s then
        match file_of d with
        | VStr f => (Ok (), [response [edit (insertion_point s) (docblock (file_name f))]])
        | _ => (Raise AttributeError, [])
        end
      else (Ok (), [response []])
  | _ => (Raise AttributeError, [])
  end.
Proof.
  unfold run, main, bind; simpl. fold (source_of d). fold (file_of d).
  destruct (source_of d) as [| | | |s| |]; try done. simpl.
  unfold needs_docblock.
  destruct (str_startswith s php_open) eqn:Hopen; simpl; [|done].
  destruct (str_startswith s php_docblock) eqn:Hdoc; simpl; [done|].
  unfold bind, py_advance, lift.
  rewrite advance_blank_run; cycle 1.
  { assert (5 ≤ len s); [|lia]. apply needs_docblock_len.
    unfold needs_docblock. by rewrite Hopen, Hdoc. }
  destruct (file_of d) as [| | | |f| |]; try done. simpl.
  by rewrite seq_getitem_split.
Qed.

Lemma emitted_dict d :
  emitted (Document (VDict d)) =
  match source_of d, file_of d with
  | VStr s, VStr f =>
      if needs_docblock s then [edit (insertion_point s) (docblock (file_name f))] else []
  | _, _ => []
  end.
Proof.
  unfold emitted. rewrite run_dict.
  destruct (source_of d) as [| | | |s| |]; try done.
  destruct (needs_docblock s), (file_of d); done.
Qed.

(** A run that raises has written nothing, and raises in [json.load] or
    in a method call on a value of the wrong type: the loop and the index
    [[-1]] never do. *)
Lemma run_raises input e out :
  run input = (Raise e, out) →
  out = [] ∧ (e = JSONDecodeError ∨ e = AttributeError).
Proof.
  destruct input as [|v]; [intros [= <- <-]; auto|].
  destruct v as [| | | | | |d]; try (intros [= <- <-]; auto).
  rewrite run_dict.
  destruct (source_of d) as [| | | |s| |]; try (intros [= <- <-]; auto).
  destruct (needs_docblock s); [|done].
  destruct (file_of d); intros [= <- <-]; auto.
Qed.

(** Where an emitted edit comes from: whatever is on [stdin]. *)
Lemma emitted_inv input e :
  e ∈ emitted input →
  ∃ d s f, input = Document (VDict d) ∧ source_of d = VStr s ∧ file_of d = VStr f
           ∧ needs_docblock s = true
           ∧ e = edit (insertion_point s) (docblock (file_name f)).
Proof.
  destruct input as [|v]; [by intros ?%elem_of_nil|].
  destruct v as [| | | | | |d]; try by intros ?%elem_of_nil.
  rewrite emitted_dict. intros He. exists d.
  destruct (source_of d) as [| | | |s| |]; try by apply elem_of_nil in He.
  destruct (file_of d) as [| | | |f| |]; try by apply elem_of_nil in He.
  destruct (needs_docblock s) eqn:Hs; cbn iota in He; [|by apply elem_of_nil in He].
  apply list_elem_of_singleton in He. by exists s, f.
Qed.

(** Runs on concrete inputs. *)
Example run_not_json : run NotJSON = (Raise JSONDecodeError, []).
Proof. reflexivity. Qed.
Example run_json_list : run (Document (VList [])) = (Raise AttributeError, []).
Proof. reflexivity. Qed.
Example run_null_source :
  run (Document (VDict {[ lit "source" := VNone ]})) = (Raise AttributeError, []).
Proof. by vm_compute. Qed.
Example run_blanks_then_code :
  run (Document (VDict (request (lit "<?php " ++ [TAB; LF] ++ lit "echo 1;")
                                (lit "src/Foo.php"))))
  = (Ok (), [response [edit 7 (docblock (lit "Foo.php"))]]).
Proof. by vm_compute. Qed.
Example run_has_docblock :
  run (Document (VDict (request (lit "<?php" ++ [LF] ++ lit "/** x */") (lit "a.php"))))
  = (Ok (), [response []]).
Proof. by vm_compute. Qed.
Example run_docblock_after_blank :
  run (Document (VDict (request (lit "<?php " ++ [LF] ++ lit "/** x */") (lit "a.php"))))
  = (Ok (), [response [edit 6 (docblock (lit "a.php"))]]).
Proof. by vm_compute. Qed.
Example run_not_php :
  run (Document (VDict (request (lit "<html>") (lit "a.php")))) = (Ok (), [response []]).
Proof. by vm_compute. Qed.

(** ** The claims about the plugin *)

(** C1. For a request whose [source] (as [main] reads it) is a string,
    every edit the plugin emits meets the Edit invariant
    [0 <= start <= end <= len(source)]: the source begins with ['<?php'],
    [start] equals [end] and is at least 5, and the loop, from any position
    within the source, returns a position that is still within it. *)
Theorem emitted_edit_within_source (d : gmap str value) (s : str) (e : value) :
  source_of d = VStr s →
  e ∈ emitted (Document (VDict d)) →
  str_startswith s php_open = true
  ∧ (∃ a b, edit_start e = Some a ∧ edit_end e = Some b
            ∧ a = b ∧ 5 ≤ a ∧ edit_invariant (len s) a b)
  ∧ (∀ pos, 0 ≤ pos ≤ len s → ∃ p, advance s pos = Ok p ∧ pos ≤ p ≤ len s).
Proof.
  intros Hs (d' & s' & f & [= <-] & Hs' & _ & Hneeds & ->)%emitted_inv.
  rewrite Hs in Hs'. injection Hs' as <-.
  split; [by apply andb_true_iff in Hneeds as [? _]|].
  split; [|apply advance_within].
  exists (insertion_point s), (insertion_point s).
  pose proof (insertion_point_bounds s (needs_docblock_len s Hneeds)).
  autorewrite with edit_fields. unfold edit_invariant. repeat split; lia.
Qed.

Lemma emitted_edit_within_source_witness :
  str_startswith (lit "<?php " ++ [TAB; LF]) php_open = true
  ∧ (∃ a b, edit_start (edit 7 (docblock (lit "Foo.php"))) = Some a
            ∧ edit_end (edit 7 (docblock (lit "Foo.php"))) = Some b
            ∧ a = b ∧ 5 ≤ a ∧ edit_invariant 8 a b)
  ∧ (∀ pos, 0 ≤ pos ≤ 8 →
       ∃ p, advance (lit "<?php " ++ [TAB; LF]) pos = Ok p ∧ pos ≤ p ≤ 8).
Proof.
  apply (emitted_edit_within_source
           (request (lit "<?php " ++ [TAB; LF]) (lit "src/Foo.php"))
           (lit "<?php " ++ [TAB; LF])
           (edit 7 (docblock (lit "Foo.php")))).
  - reflexivity.
  - run_emits.
Defined.

(** C3. Whatever is on [stdin], every edit the plugin emits has
    [start == end], a pure insertion: never [start < end]. *)
Theorem emitted_edit_is_insertion (input : stdin) (e : value) :
  e ∈ emitted input →
  ∃ a b, edit_start e = Some a ∧ edit_end e = Some b ∧ a = b ∧ ¬ a < b.
Proof.
  intros (d & s & f & _ & _ & _ & _ & ->)%emitted_inv.
  exists (insertion_point s), (insertion_point s).
  autorewrite with edit_fields. repeat split; lia.
Qed.

Lemma emitted_edit_is_insertion_witness :
  ∃ a b, edit_start (edit 5 (docblock (lit "a.php"))) = Some a
         ∧ edit_end (edit 5 (docblock (lit "a.php"))) = Some b ∧ a = b ∧ ¬ a < b.
Proof.
  apply (emitted_edit_is_insertion
           (Document (VDict (request (lit "<?php" ++ [LF]) (lit "a.php"))))).
  run_emits.
Defined.

(** C9. Whenever the plugin emits an edit, the request is an object whose
    [source] is a string [s], and the edit's [start], equal to its [end],
    is 5 plus the length of the maximal run of spaces and tabs that begins
    at index 5 of [s]: every [s[i]] with [5 <= i < start] is a space or a
    tab, and [start] is [len(s)] or [s[start]] is neither.  On the source
    ["<?php\n"] the offset is 5. *)
Theorem emitted_edit_after_blanks (input : stdin) (e : value) :
  e ∈ emitted input →
  ∃ d s p,
    input = Document (VDict d) ∧ source_of d = VStr s
    ∧ edit_start e = Some p ∧ edit_end e = Some p
    ∧ p = 5 + Z.of_nat (blank_run (drop 5 s))
    ∧ (∀ i, 5 ≤ i < p → ∃ c, seq_getitem s i = Ok c ∧ (c = SPACE ∨ c = TAB))
    ∧ (p = len s ∨ ∃ c, seq_getitem s p = Ok c ∧ c ≠ SPACE ∧ c ≠ TAB)
    ∧ (s = lit "<?php" ++ [LF] → p = 5).
Proof.
  intros (d & s & f & -> & Hs & _ & Hneeds & ->)%emitted_inv.
  exists d, s, (insertion_point s).
  pose proof (needs_docblock_len s Hneeds) as Hlen.
  pose proof (insertion_point_bounds s Hlen) as Hp.
  autorewrite with edit_fields. do 5 (split; [done|]).
  unfold insertion_point in *. split; [|split].
  - intros i Hi.
    destruct (blank_run_lookup (drop 5 s) (Z.to_nat (i - 5))) as (c & Hc & Hb); [lia|].
    rewrite lookup_drop in Hc.
    destruct (seq_getitem_lookup s i) as (c' & Hc' & Hget); [lia|].
    replace (5 + Z.to_nat (i - 5))%nat with (Z.to_nat i) in Hc by lia.
    rewrite Hc in Hc'. injection Hc' as <-.
    exists c. by rewrite <-is_blank_true.
  - destruct (blank_run_stop (drop 5 s)) as [Hall|(c & Hc & Hb)].
    + left. rewrite Hall, length_drop. unfold len in *. lia.
    + right. rewrite lookup_drop in Hc.
      set (p := 5 + Z.of_nat (blank_run (drop 5 s))) in *.
      replace (5 + blank_run (drop 5 s))%nat with (Z.to_nat p) in Hc by lia.
      assert (0 ≤ p < len s) as Hin.
      { apply lookup_lt_Some in Hc. unfold len. lia. }
      destruct (seq_getitem_lookup s p Hin) as (c' & Hc' & Hget).
      rewrite Hc in Hc'. injection Hc' as <-.
      exists c. by rewrite <-is_blank_false.
  - by intros ->.
Qed.

Lemma emitted_edit_after_blanks_witness :
  ∃ d s p,
    Document (VDict (request (lit "<?php" ++ [LF]) (lit "a.php"))) = Document (VDict d)
    ∧ source_of d = VStr s
    ∧ edit_start (edit 5 (docblock (lit "a.php"))) = Some p
    ∧ edit_end (edit 5 (docblock (lit "a.php"))) = Some p
    ∧ p = 5 + Z.of_nat (blank_run (drop 5 s))
    ∧ (∀ i, 5 ≤ i < p → ∃ c, seq_getitem s i = Ok c ∧ (c = SPACE ∨ c = TAB))
    ∧ (p = len s ∨ ∃ c, seq_getitem s p = Ok c ∧ c ≠ SPACE ∧ c ≠ TAB)
    ∧ (s = lit "<?php" ++ [LF] → p = 5).
Proof.
  apply (emitted_edit_after_blanks
           (Document (VDict (request (lit "<?php" ++ [LF]) (lit "a.php"))))).
  run_emits.
Defined.

(** C8, as amended.  For a request whose [source] is a string: when
    [file] is a string too (or absent, hence ['']), the plugin writes one
    response, with exactly one edit if the source starts with ['<?php'] and
    not with ['<?php\n/**'], and with none otherwise; when the source asks
    for no docblock it writes the empty list whatever [file] is; and no run
    emits more than one edit. *)
Theorem one_edit_or_none (d : gmap str value) (s : str) :
  source_of d = VStr s →
  (∀ f, file_of d = VStr f →
     ∃ edits, run (Document (VDict d)) = (Ok (), [response edits])
              ∧ emitted (Document (VDict d)) = edits
              ∧ length edits = if needs_docblock s then 1%nat else 0%nat)
  ∧ (needs_docblock s = false →
       run (Document (VDict d)) = (Ok (), [response []]))
  ∧ (length (emitted (Document (VDict d))) ≤ 1)%nat.
Proof.
  intros Hs. rewrite emitted_dict, run_dict, Hs. split; [|split].
  - intros f ->. destruct (needs_docblock s); eauto.
  - by intros ->.
  - destruct (file_of d), (needs_docblock s); simpl; lia.
Qed.

Lemma one_edit_or_none_witness :
  (length (emitted (Document (VDict (request (lit "<?php" ++ [LF]) (lit "a.php")))))
   ≤ 1)%nat.
Proof.
  apply (one_edit_or_none (request (lit "<?php" ++ [LF]) (lit "a.php"))
           (lit "<?php" ++ [LF])).
  reflexivity.
Defined.

(** C8, as stated, fails on [{"source": "<?php", "file": null}]: the
    source is a string that asks for a docblock, [None.split] raises, and
    the run ends with nothing written. *)
Lemma null_file_emits_nothing :
  source_of request_null_file = VStr (lit "<?php")
  ∧ needs_docblock (lit "<?php") = true
  ∧ run (Document (VDict request_null_file)) = (Raise AttributeError, [])
  ∧ emitted (Document (VDict request_null_file)) = [].
Proof. by vm_compute. Qed.

(** C2. For a request object whose [source] and [file] are strings, the
    plugin writes exactly one document, the object [{"edits": edits}] with
    [edits] a list, each entry of which has exactly the fields [start] and
    [end], integers, and [replacement] and [message], strings. *)
Theorem response_follows_schema (d : gmap str value) (s f : str) :
  d !! lit "source" = Some (VStr s) →
  d !! lit "file" = Some (VStr f) →
  ∃ edits,
    run (Document (VDict d)) = (Ok (), [VDict {[ lit "edits" := VList edits ]}])
    ∧ Forall edit_schema edits.
Proof.
  intros Hs Hf. rewrite run_dict. unfold source_of, file_of. rewrite Hs, Hf. simpl.
  destruct (needs_docblock s).
  - eexists. split; [done|]. apply Forall_singleton, edit_schema_edit.
  - by exists [].
Qed.

Lemma response_follows_schema_witness :
  ∃ edits,
    run (Document (VDict (request (lit "<?php" ++ [LF]) (lit "a.php"))))
      = (Ok (), [VDict {[ lit "edits" := VList edits ]}])
    ∧ Forall edit_schema edits.
Proof.
  apply (response_follows_schema _ (lit "<?php" ++ [LF]) (lit "a.php")); reflexivity.
Defined.

(** C4. Two requests with the same string [source] and string [file]s
    (different or not) get the same number of edits, with the same [start],
    [end] and [message]; [file] reaches the output only in the
    [replacement], through its piece after the last ['/'], so that two
    files with the same last piece get the same run.  A run is a function
    of [stdin] and leaves nothing behind but what it wrote: there is no
    file the plugin opens. *)
Theorem file_is_advisory (d1 d2 : gmap str value) (s f1 f2 : str) :
  source_of d1 = VStr s → source_of d2 = VStr s →
  file_of d1 = VStr f1 → file_of d2 = VStr f2 →
  length (emitted (Document (VDict d1))) = length (emitted (Document (VDict d2)))
  ∧ edit_start <$> emitted (Document (VDict d1))
    = edit_start <$> emitted (Document (VDict d2))
  ∧ edit_end <$> emitted (Document (VDict d1))
    = edit_end <$> emitted (Document (VDict d2))
  ∧ edit_message <$> emitted (Document (VDict d1))
    = edit_message <$> emitted (Document (VDict d2))
  ∧ Forall (λ e, edit_replacement e = Some (docblock (file_name f1)))
           (emitted (Document (VDict d1)))
  ∧ (SLASH ∉ file_name f1)
  ∧ (f1 = file_name f1 ∨ ∃ dir, f1 = dir ++ SLASH :: file_name f1)
  ∧ (file_name f1 = file_name f2 →
       run (Document (VDict d1)) = run (Document (VDict d2))).
Proof.
  intros Hs1 Hs2 Hf1 Hf2. rewrite !emitted_dict, !run_dict, Hs1, Hs2, Hf1, Hf2.
  destruct (file_name_spec f1) as [Hslash Hlast].
  destruct (needs_docblock s).
  - repeat split; [by apply Forall_singleton|done|done|by intros ->].
  - by repeat split.
Qed.

Lemma file_is_advisory_witness :
  edit_start <$> emitted (Document (VDict (request (lit "<?php" ++ [LF]) (lit "lib/a.php"))))
  = edit_start <$> emitted (Document (VDict (request (lit "<?php" ++ [LF]) (lit "b.php")))).
Proof.
  apply (file_is_advisory _ _ (lit "<?php" ++ [LF]) (lit "lib/a.php") (lit "b.php"));
    reflexivity.
Defined.

(** C10. For an input object whose [source] and [file], when present, are
    strings, [main] returns normally and writes one response that follows
    the schema; [get] gives a missing key the default [''] and does not
    raise; and with [source] missing the response is [{"edits": []}]. *)
Theorem missing_fields_default (d : gmap str value) :
  (∀ v, d !! lit "source" = Some v → ∃ s, v = VStr s) →
  (∀ v, d !! lit "file" = Some v → ∃ f, v = VStr f) →
  (∃ edits,
     run (Document (VDict d)) = (Ok (), [VDict {[ lit "edits" := VList edits ]}])
     ∧ Forall edit_schema edits)
  ∧ (∀ key out, d !! key = None →
       py_get (VDict d) key (VStr []) out = (Ok (VStr []), out))
  ∧ (d !! lit "source" = None →
       run (Document (VDict d)) = (Ok (), [VDict {[ lit "edits" := VList [] ]}])).
Proof.
  intros Hsource Hfile. split; [|split].
  - assert (∃ s, source_of d = VStr s) as [s Hs].
    { unfold source_of. destruct (d !! lit "source") as [v|]; simpl; eauto. }
    assert (∃ f, file_of d = VStr f) as [f Hf].
    { unfold file_of. destruct (d !! lit "file") as [v|]; simpl; eauto. }
    rewrite run_dict, Hs, Hf. destruct (needs_docblock s).
    + eexists. split; [done|]. apply Forall_singleton, edit_schema_edit.
    + by exists [].
  - intros key out Hkey. unfold py_get. by rewrite Hkey.
  - intros Hnone. rewrite run_dict. unfold source_of. by rewrite Hnone.
Qed.

Lemma missing_fields_default_witness :
  run (Document (VDict ∅)) = (Ok (), [VDict {[ lit "edits" := VList [] ]}]).
Proof.
  apply (missing_fields_default ∅); [intros v Hv; by rewrite lookup_empty in Hv..|].
  apply lookup_empty.
Defined.

End PluginFacts.

(** * The edit merger: sorting, walking, and what a run yields *)

Module MergerFacts.
Import Py Merger PyFacts.

(** ** Validation *)

Lemma validate_accepted source e :
  validate source e = Accepted ↔ 0 ≤ start e ≤ end_ e ∧ end_ e ≤ len source.
Proof. unfold validate. repeat case_decide; split; (done || lia). Qed.

Lemma valid_edits_all source l :
  Forall (λ a, validate source (edit a) = Accepted) l → valid_edits source l = l.
Proof.
  unfold valid_edits. induction 1 as [|a l Ha _ IH]; [done|].
  by rewrite filter_cons_True, IH.
Qed.

Lemma invalid_edits_none source l :
  Forall (λ a, validate source (edit a) = Accepted) l → invalid_edits source l = [].
Proof.
  unfold invalid_edits. induction 1 as [|a l Ha _ IH]; [done|].
  simpl. by rewrite Ha.
Qed.

(** ** The insertion sort is the stable sort, and there is no other *)

Lemma filter_insert_by_start (k : Z) a l :
  filter (λ b, start (edit b) = k) (insert_by_start a l)
  = filter (λ b, start (edit b) = k) (a :: l).
Proof.
  induction l as [|b l IH]; simpl; [done|].
  case_decide as Hab; [done|].
  rewrite (filter_cons _ b), IH, !filter_cons.
  repeat case_decide; try done; lia.
Qed.

Lemma HdRel_insert_by_start a b l :
  by_start b a → HdRel by_start b l → HdRel by_start b (insert_by_start a l).
Proof.
  intros Hba Hl. destruct l as [|c l]; simpl; [by constructor|].
  case_decide; constructor; [done|]. by apply HdRel_inv in Hl.
Qed.

Lemma Sorted_insert_by_start a l :
  Sorted by_start l → Sorted by_start (insert_by_start a l).
Proof.
  induction 1 as [|b l Hl IH Hb]; simpl; [by repeat constructor|].
  case_decide as Hab.
  - by repeat constructor.
  - constructor; [done|]. apply HdRel_insert_by_start; [|done].
    unfold by_start. lia.
Qed.

Lemma insert_by_start_perm a l : insert_by_start a l ≡ₚ a :: l.
Proof.
  induction l as [|b l IH]; simpl; [done|].
  case_decide; [done|]. by rewrite IH, Permutation_swap.
Qed.

Lemma sort_by_start_perm l : sort_by_start l ≡ₚ l.
Proof.
  induction l as [|a l IH]; simpl; [done|].
  by rewrite insert_by_start_perm, IH.
Qed.

Lemma sort_by_start_stable l : stable_sorted l (sort_by_start l).
Proof.
  split.
  - induction l as [|a l IH]; simpl; [constructor|by apply Sorted_insert_by_start].
  - intros k. induction l as [|a l IH]; simpl; [done|].
    by rewrite filter_insert_by_start, !filter_cons, IH.
Qed.

(** Two sequences that are ascending by [start] and hold, for every
    [start], the same Edits in the same order, are the same sequence. *)
Lemma stable_sorted_unique l s1 s2 :
  stable_sorted l s1 → stable_sorted l s2 → s1 = s2.
Proof.
  intros [Hs1 Hf1] [Hs2 Hf2].
  assert (∀ k, filter (λ a, start (edit a) = k) s1
               = filter (λ a, start (edit a) = k) s2) as Hf.
  { intros k. by rewrite Hf1, Hf2. }
  clear Hf1 Hf2 l. apply Sorted_StronglySorted in Hs1, Hs2; try apply _.
  revert s2 Hs2 Hf. induction Hs1 as [|x s1 Hs1 IH Hx]; intros s2 Hs2 Hf.
  - destruct s2 as [|y s2]; [done|].
    specialize (Hf (start (edit y))). by rewrite filter_cons_True in Hf.
  - destruct Hs2 as [|y s2 Hs2 Hy].
    { specialize (Hf (start (edit x))). by rewrite filter_cons_True in Hf. }
    assert (by_start y x) as Hyx.
    { assert (x ∈ y :: s2) as Hin.
      { eapply (list_elem_of_filter (λ a, start (edit a) = start (edit x))).
        rewrite <-Hf, filter_cons_True by done. left. }
      apply elem_of_cons in Hin as [->|Hin]; [by unfold by_start|].
      by eapply Forall_forall in Hy. }
    assert (by_start x y) as Hxy.
    { assert (y ∈ x :: s1) as Hin.
      { eapply (list_elem_of_filter (λ a, start (edit a) = start (edit y))).
        rewrite Hf, filter_cons_True by done. left. }
      apply elem_of_cons in Hin as [->|Hin]; [by unfold by_start|].
      by eapply Forall_forall in Hx. }
    assert (start (edit x) = start (edit y)) as Hk by (unfold by_start in *; lia).
    pose proof (Hf (start (edit x))) as Hhd.
    rewrite !filter_cons_True in Hhd by done. injection Hhd as <- Htl.
    f_equal. apply IH; [done|]. intros k. specialize (Hf k).
    rewrite !filter_cons in Hf.
    destruct (decide (start (edit x) = k)); [by injection Hf|done].
Qed.

(** ** The walk *)

Section walk.
Variable source : str.

Lemma step_deterministic st st1 st2 :
  step source st st1 → step source st st2 → st1 = st2.
Proof.
  intros H1 H2. inversion H1; subst; inversion H2; subst; try done; lia.
Qed.

Lemma step_pending st st' : step source st st' → pending st ≠ [].
Proof. by inversion 1. Qed.

(** Two walks from one state that both leave nothing pending end in the
    same state. *)
Lemma walk_confluent st final1 final2 :
  rtc (step source) st final1 → pending final1 = [] →
  rtc (step source) st final2 → pending final2 = [] →
  final1 = final2.
Proof.
  induction 1 as [st|st st1 final1 Hstep Hrest IH]; intros Hfinal1 Hrun2 Hfinal2.
  - apply rtc_inv in Hrun2 as [->|(st2 & Hstep & _)]; [done|].
    by apply step_pending in Hstep.
  - apply rtc_inv in Hrun2 as [->|(st2 & Hstep2 & Hrest2)].
    + by apply step_pending in Hstep.
    + rewrite <-(step_deterministic _ _ _ Hstep Hstep2) in Hrest2. by apply IH.
Qed.

(** The function [walk] takes the steps of the relation, to the end. *)
Lemma walk_steps todo cur buf rep :
  rtc (step source)
    {| pending := todo; cursor := cur; buffer := buf; report := rep |}
    (walk source todo cur buf rep)
  ∧ pending (walk source todo cur buf rep) = [].
Proof.
  revert cur buf rep. induction todo as [|a rest IH]; intros cur buf rep; simpl.
  - done.
  - case_decide.
    + split; [|apply IH]. eapply rtc_l; [by apply step_reject|apply IH].
    + split; [|apply IH]. eapply rtc_l; [apply step_accept; lia|apply IH].
Qed.

Lemma length_slice (a b : Z) :
  0 ≤ a ≤ b → b ≤ len source → length (slice source a b) = Z.to_nat (b - a).
Proof.
  intros Hab Hb. unfold slice, len in *. rewrite length_take, length_drop. lia.
Qed.

(** Walking valid pure insertions that are sorted and start at or after
    the cursor: none is rejected, and the text grows by what they insert. *)
Lemma walk_insertions todo cur buf rep :
  0 ≤ cur ≤ len source →
  StronglySorted by_start todo →
  Forall (λ a, cur ≤ start (edit a)) todo →
  Forall (pure_insertion source) todo →
  length (fst (result_of source (walk source todo cur buf rep)))
  = (length buf + (length source - Z.to_nat cur)
     + sum_list_with (λ a, length (replacement (edit a))) todo)%nat
  ∧ report (walk source todo cur buf rep)
    = {| applied := applied rep ++ todo; rejected := rejected rep |}.
Proof.
  intros Hcur Hsorted. revert cur buf rep Hcur.
  induction Hsorted as [|a rest Hrest IH Ha]; intros cur buf rep Hcur Hfrom Hpure;
    cbn [walk].
  - unfold result_of, slice_from. simpl.
    rewrite length_app, length_drop, app_nil_r.
    split; [lia|by destruct rep].
  - apply Forall_cons in Hfrom as [Hfrom_a _].
    apply Forall_cons in Hpure as [[Hvalid Hins] Hpure].
    apply validate_accepted in Hvalid.
    rewrite decide_False by lia.
    destruct (IH (end_ (edit a))
                (buf ++ slice source cur (start (edit a)) ++ replacement (edit a))
                (record_applied a rep)) as [Hlen Hrep]; [lia| |done|].
    { eapply Forall_impl; [exact Ha|]. unfold by_start. intros; lia. }
    rewrite Hlen, Hrep, !length_app, length_slice by lia. simpl.
    split; [unfold len in *; lia|by rewrite <-app_assoc].
Qed.
End walk.

(** The function [merge] is a run of the Merger: there always is one. *)
Lemma merge_is_run source edits : merger_run source edits (merge source edits).
Proof.
  eexists _, _. split; [apply sort_by_start_stable|].
  split; [apply walk_steps|]. split; [apply walk_steps|done].
Qed.

(** The Merger on the inputs of the spec's testable properties: an
    insertion, and an Edit that reaches past the end of the source. *)
Example merge_insertion :
  merge (lit "<?php" ++ [LF]) [aggregated 5 5 (lit "X") [] []]
  = (lit "<?phpX" ++ [LF],
     {| applied := [aggregated 5 5 (lit "X") [] []]; rejected := [] |}).
Proof. reflexivity. Qed.
Example merge_out_of_range :
  merge (lit "abcdefghij") [aggregated 8 12 (lit "Z") [] []]
  = (lit "abcdefghij",
     {| applied := [];
        rejected := [(aggregated 8 12 (lit "Z") [] [],
                      InvalidEditError OffsetOutOfRange)] |}).
Proof. reflexivity. Qed.
Example merge_same_offset :
  (merge (lit "ab") [aggregated 1 1 (lit "X") [] []; aggregated 1 1 (lit "Y") [] []]).1
  = lit "aXYb".
Proof. reflexivity. Qed.

(** ** The claims about the merger *)

(** C5. On the source ["abcdefghij"], with [e1 = (0, 5, "X")] and
    [e2 = (3, 8, "Y")], whatever their messages and origins and in either
    order of arrival: both Edits are valid, sorting puts [e1] first, the
    walk applies [e1], which moves the cursor to 5, then rejects [e2]
    because [3 < 5], and the Merger yields the text ["Xfghij"] and a report
    whose rejected list holds [e2] with [OverlapError]. *)
Theorem overlap_policy (m1 m2 o1 o2 : str) :
  let source := lit "abcdefghij" in
  let e1 := aggregated 0 5 (lit "X") m1 o1 in
  let e2 := aggregated 3 8 (lit "Y") m2 o2 in
  let after_e1 :=
    {| pending := [e2]; cursor := 5; buffer := lit "X";
       report := {| applied := [e1]; rejected := [] |} |} in
  let after_e2 :=
    {| pending := []; cursor := 5; buffer := lit "X";
       report := {| applied := [e1]; rejected := [(e2, OverlapError)] |} |} in
  valid_edits source [e1; e2] = [e1; e2]
  ∧ sort_by_start [e1; e2] = [e1; e2]
  ∧ sort_by_start [e2; e1] = [e1; e2]
  ∧ step source (initial [e1; e2] []) after_e1
  ∧ start (edit e2) < cursor after_e1
  ∧ step source after_e1 after_e2
  ∧ result_of source after_e2
    = (lit "Xfghij", {| applied := [e1]; rejected := [(e2, OverlapError)] |})
  ∧ merge source [e1; e2]
    = (lit "Xfghij", {| applied := [e1]; rejected := [(e2, OverlapError)] |})
  ∧ merge source [e2; e1] = merge source [e1; e2].
Proof.
  intros source e1 e2 after_e1 after_e2.
  do 3 (split; [reflexivity|]).
  split; [by apply (step_accept source e1 [e2] 0 [])|].
  split; [done|].
  split; [by apply (step_reject source e2 [] 5)|].
  by repeat split.
Qed.

(** C6. The Merger is deterministic: on one source and one aggregated
    sequence, any two runs, each free to sort in any way step 2 allows and
    to take the steps of the walk, end with the same final text and the
    same report, which are those the function [merge] computes.  A run has
    no other input: how the plugins were invoked does not reach it. *)
Theorem merger_deterministic source edits res1 res2 :
  merger_run source edits res1 → merger_run source edits res2 →
  res1 = res2 ∧ res1 = merge source edits.
Proof.
  assert (∀ r1 r2, merger_run source edits r1 → merger_run source edits r2 → r1 = r2)
    as Hsame.
  { intros r1 r2 (s1 & f1 & Hs1 & Hrun1 & Hend1 & ->) (s2 & f2 & Hs2 & Hrun2 & Hend2 & ->).
    rewrite (stable_sorted_unique _ _ _ Hs1 Hs2) in Hrun1.
    by rewrite (walk_confluent _ _ _ _ Hrun1 Hend1 Hrun2 Hend2). }
  intros Hrun1 Hrun2. split; [by apply Hsame|].
  apply Hsame; [done|apply merge_is_run].
Qed.

Lemma merger_deterministic_witness :
  merge (lit "abcdefghij")
    [aggregated 3 8 (lit "Y") [] (lit "b"); aggregated 0 5 (lit "X") [] (lit "a")]
  = (lit "Xfghij",
     {| applied := [aggregated 0 5 (lit "X") [] (lit "a")];
        rejected := [(aggregated 3 8 (lit "Y") [] (lit "b"), OverlapError)] |}).
Proof.
  apply (merger_deterministic (lit "abcdefghij")
           [aggregated 3 8 (lit "Y") [] (lit "b"); aggregated 0 5 (lit "X") [] (lit "a")]).
  - apply merge_is_run.
  - exists [aggregated 0 5 (lit "X") [] (lit "a"); aggregated 3 8 (lit "Y") [] (lit "b")].
    eexists. split; [|split; [|split]].
    + split; [by repeat constructor|]. intros k. vm_compute valid_edits.
      rewrite !filter_cons, !filter_nil. simpl. repeat case_decide; try done; lia.
    + eapply rtc_l; [by apply step_accept|].
      eapply rtc_l; [by apply step_reject|]. apply rtc_refl.
    + done.
    + done.
Defined.

(** C7. When every Edit of the sequence is valid and a pure insertion
    ([start == end]), the Merger rejects none of them, applies them all,
    and the length of the result is the length of the source plus the sum
    of the lengths of the replacements.  Insertions never overlap for the
    walk, not even at one offset, so no more needs to be asked. *)
Theorem insertions_add_lengths (source : str) (edits : list AggregatedEdit) :
  Forall (pure_insertion source) edits →
  length (merge source edits).1
  = (length source + sum_list_with (λ a, length (replacement (edit a))) edits)%nat
  ∧ rejected (merge source edits).2 = []
  ∧ applied (merge source edits).2 ≡ₚ edits.
Proof.
  intros Hpure.
  assert (Forall (λ a, validate source (edit a) = Accepted) edits) as Hvalid.
  { eapply Forall_impl; [exact Hpure|]. by intros a [? _]. }
  unfold merge. rewrite valid_edits_all, invalid_edits_none by done. simpl.
  destruct (walk_insertions source (sort_by_start edits) 0 []
              {| applied := []; rejected := [] |}) as [Hlen Hrep].
  - pose proof (len_nonneg source). lia.
  - apply Sorted_StronglySorted; [apply _|]. apply sort_by_start_stable.
  - rewrite sort_by_start_perm. eapply Forall_impl; [exact Hpure|].
    intros a [Ha _]. apply validate_accepted in Ha. lia.
  - by rewrite sort_by_start_perm.
  - assert (sum_list_with (λ a, length (replacement (edit a))) (sort_by_start edits)
            = sum_list_with (λ a, length (replacement (edit a))) edits) as Hsum.
    { by rewrite sort_by_start_perm. }
    simpl in Hlen. rewrite Hlen, Hrep, Hsum. simpl.
    split; [lia|]. split; [done|apply sort_by_start_perm].
Qed.

Lemma insertions_add_lengths_witness :
  length (merge (lit "<?php" ++ [LF])
            [aggregated 5 5 (lit "X") [] []; aggregated 0 0 (lit "ab") [] [];
             aggregated 5 5 (lit "Z") [] []]).1
  = (6 + 4)%nat.
Proof.
  apply (insertions_add_lengths (lit "<?php" ++ [LF])
           [aggregated 5 5 (lit "X") [] []; aggregated 0 0 (lit "ab") [] [];
            aggregated 5 5 (lit "Z") [] []]).
  by repeat constructor.
Defined.

End MergerFacts.

(** * The echo plugin: more of what [main] does *)

Module PluginMore.
Import Py Plugin PyFacts PluginFacts.

Lemma source_of_request s f : source_of (request s f) = VStr s.
Proof. reflexivity. Qed.
Lemma file_of_request s f : file_of (request s f) = VStr f.
Proof. reflexivity. Qed.




(** X2. [main] reads the keys ['source'] and ['file'] of the request and
    no other: two request objects that agree on these two keys, whatever
    else they hold, get the same run. *)
Theorem run_reads_two_keys (d1 d2 : gmap str value) :
  d1 !! lit "source" = d2 !! lit "source" →
  d1 !! lit "file" = d2 !! lit "file" →
  run (Document (VDict d1)) = run (Document (VDict d2)).
Proof.
  intros Hsource Hfile. rewrite !run_dict. unfold source_of, file_of.
  by rewrite Hsource, Hfile.
Qed.

Lemma run_reads_two_keys_witness :
  run (Document (VDict (request (lit "<?php") (lit "a.php"))))
  = run (Document (VDict (<[lit "options" := VList [VInt 1]]>
                            (request (lit "<?php") (lit "a.php"))))).
Proof.
  apply (run_reads_two_keys
           (request (lit "<?php") (lit "a.php"))
           (<[lit "options" := VList [VInt 1]]> (request (lit "<?php") (lit "a.php"))));
    reflexivity.
Defined.

(** ** The name in the docblock *)

Lemma last_separator_unique (sep : codepoint) (d1 d2 n1 n2 : str) :
  sep ∉ n1 → sep ∉ n2 → d1 ++ sep :: n1 = d2 ++ sep :: n2 → n1 = n2.
Proof.
  intros Hn1 Hn2. revert d2. induction d1 as [|c d1 IH]; intros [|c' d2] Heq;
    simplify_eq/=.
  - done.
  - destruct Hn1. apply elem_of_app. right. left.
  - destruct Hn2. apply elem_of_app. right. left.
  - by eapply IH.
Qed.

Lemma file_name_no_slash (f : str) : SLASH ∉ f → file_name f = f.
Proof.
  intros Hf. destruct (file_name_spec f) as [_ [<-|[dir Hdir]]]; [done|].
  destruct Hf. rewrite Hdir. apply elem_of_app. right. left.
Qed.

Lemma file_name_after_slash (dir name : str) :
  SLASH ∉ name → file_name (dir ++ SLASH :: name) = name.
Proof.
  intros Hname. destruct (file_name_spec (dir ++ SLASH :: name)) as [Hno [Heq|[d Hd]]].
  - destruct Hno. rewrite <-Heq. apply elem_of_app. right. left.
  - symmetry. by eapply last_separator_unique.
Qed.

(** X3. The name written after [@file] is what follows the last ['/'] of
    [file]: for a source that asks for a docblock, a [file] of the form
    [dir + '/' + name] with no ['/'] in [name] gives the docblock of
    [name] (the empty name when [file] ends in ['/']), and a [file] with
    no ['/'] at all, the empty one included, is used whole. *)
Theorem docblock_names_last_piece (s dir name : str) :
  needs_docblock s = true →
  SLASH ∉ name →
  emitted (Document (VDict (request s (dir ++ SLASH :: name))))
  = [edit (insertion_point s) (docblock name)]
  ∧ emitted (Document (VDict (request s (dir ++ [SLASH]))))
    = [edit (insertion_point s) (docblock [])]
  ∧ emitted (Document (VDict (request s name)))
    = [edit (insertion_point s) (docblock name)].
Proof.
  intros Hs Hname.
  rewrite !emitted_dict, !source_of_request, !file_of_request, Hs.
  rewrite file_name_after_slash by done.
  rewrite file_name_after_slash by apply not_elem_of_nil.
  by rewrite file_name_no_slash.
Qed.

Lemma docblock_names_last_piece_witness :
  emitted (Document (VDict (request (lit "<?php") (lit "src/lib" ++ SLASH :: lit "a.php"))))
  = [edit (insertion_point (lit "<?php")) (docblock (lit "a.php"))].
Proof.
  apply (docblock_names_last_piece (lit "<?php") (lit "src/lib") (lit "a.php")).
  - reflexivity.
  - by vm_compute; intros Hin; repeat (apply elem_of_cons in Hin as [|Hin]; [done|]);
      apply elem_of_nil in Hin.
Defined.

(** ** Running the plugin again *)

Lemma blank_run_take_stop (l : str) (c : codepoint) (rest : str) :
  is_blank c = false → blank_run (take (blank_run l) l ++ c :: rest) = blank_run l.
Proof.
  intros Hc. induction l as [|x l IH]; simpl; [by rewrite Hc|].
  destruct (is_blank x) eqn:Hx; simpl; [by rewrite Hx, IH|by rewrite Hc].
Qed.

Lemma insert_at_insertion_point (t r : str) :
  insert_at (php_open ++ t) (insertion_point (php_open ++ t)) r
  = php_open ++ take (blank_run t) t ++ r ++ drop (blank_run t) t.
Proof.
  unfold insert_at, insertion_point.
  change (drop 5 (php_open ++ t)) with t.
  replace (Z.to_nat (5 + Z.of_nat (blank_run t))) with (5 + blank_run t)%nat by lia.
  by rewrite (take_app_add' php_open), (drop_app_add' php_open).
Qed.

Lemma docblock_head (name : str) : ∃ tl, docblock name = LF :: tl.
Proof. by eexists. Qed.

(** X4. Applying the emitted edit and running the plugin on the result:
    when the edit sits at offset 5, right after ['<?php'], the new source
    starts with ['<?php\n/**'] and the plugin emits nothing more, whatever
    [file] it is given; when blanks follow ['<?php'], the docblock lands
    after them, the new source still does not start with ['<?php\n/**'],
    and the plugin emits the same insertion at the same offset again. *)
Theorem rerun_after_insertion (d : gmap str value) (s f' : str) (e : value)
    (p : Z) (r : str) :
  source_of d = VStr s →
  e ∈ emitted (Document (VDict d)) →
  edit_start e = Some p →
  edit_replacement e = Some r →
  (p = 5 → emitted (Document (VDict (request (insert_at s p r) f'))) = [])
  ∧ (p ≠ 5 → emitted (Document (VDict (request (insert_at s p r) f')))
              = [edit p (docblock (file_name f'))]).
Proof.
  intros Hs (d' & s' & f & [= <-] & Hs' & _ & Hneeds & ->)%emitted_inv Hp Hr.
  rewrite Hs in Hs'. injection Hs' as <-.
  rewrite edit_start_edit in Hp. injection Hp as <-.
  rewrite edit_replacement_edit in Hr. injection Hr as <-.
  rewrite emitted_dict, source_of_request, file_of_request.
  pose proof Hneeds as [[t ->]%str_startswith_app _]%andb_true_iff.
  rewrite insert_at_insertion_point. unfold insertion_point.
  change (drop 5 (php_open ++ t)) with t.
  destruct t as [|c t]; [|destruct (is_blank c) eqn:Hc].
  - split; [done|]. simpl. lia.
  - split; [simpl; rewrite Hc; lia|]. intros _.
    assert (needs_docblock
              (php_open ++ take (blank_run (c :: t)) (c :: t)
                 ++ docblock (file_name f) ++ drop (blank_run (c :: t)) (c :: t))
            = true) as ->.
    { simpl. rewrite Hc. unfold needs_docblock. simpl.
      destruct (decide (c = LF)) as [->|]; done. }
    do 3 f_equal. unfold insertion_point.
    change (drop 5 (php_open ++ ?x)) with x.
    destruct (docblock_head (file_name f)) as [tl ->].
    rewrite <-app_comm_cons. by rewrite blank_run_take_stop by by vm_compute.
  - cbn [blank_run]. rewrite Hc. split; [done|lia].
Qed.

Lemma rerun_after_insertion_witness :
  (6 = 5 →
   emitted (Document (VDict (request
     (insert_at (lit "<?php " ++ [LF]) 6 (docblock (lit "a.php"))) (lit "b.php")))) = [])
  ∧ (6 ≠ 5 →
     emitted (Document (VDict (request
       (insert_at (lit "<?php " ++ [LF]) 6 (docblock (lit "a.php"))) (lit "b.php"))))
     = [edit 6 (docblock (file_name (lit "b.php")))]).
Proof.
  apply (rerun_after_insertion
           (request (lit "<?php " ++ [LF]) (lit "a.php"))
           (lit "<?php " ++ [LF]) (lit "b.php")
           (edit 6 (docblock (lit "a.php")))).
  - reflexivity.
  - run_emits.
  - reflexivity.
  - reflexivity.
Defined.

(** ** How much of the source is read *)

Lemma str_startswith_app_l (s t p : str) :
  (length p ≤ length s)%nat → str_startswith (s ++ t) p = str_startswith s p.
Proof.
  revert s. induction p as [|c p IH]; intros s Hlen; [done|].
  destruct s as [|c' s]; simpl in *; [lia|].
  case_decide; [|done]. apply IH. lia.
Qed.

Lemma blank_run_app (l t : str) :
  (blank_run l < length l)%nat → blank_run (l ++ t) = blank_run l.
Proof.
  induction l as [|c l IH]; simpl; [lia|].
  destruct (is_blank c); [|done]. intros Hlt. rewrite IH; [done|lia].
Qed.

(** X5. [main] decides from the head of the source alone: if two sources
    share a prefix of at least 9 code points within which the blanks that
    follow index 5 come to an end, then, for the same [file], the two runs
    are the same, whatever follows the prefix. *)
Theorem run_reads_head (d1 d2 : gmap str value) (pre t1 t2 : str) :
  (9 ≤ length pre)%nat →
  (blank_run (drop 5 pre) < length (drop 5 pre))%nat →
  source_of d1 = VStr (pre ++ t1) →
  source_of d2 = VStr (pre ++ t2) →
  file_of d1 = file_of d2 →
  run (Document (VDict d1)) = run (Document (VDict d2)).
Proof.
  intros Hlen Hstop Hs1 Hs2 Hf. rewrite !run_dict, Hs1, Hs2, Hf.
  assert (∀ t, needs_docblock (pre ++ t) = needs_docblock pre) as Hneeds.
  { intros t. unfold needs_docblock.
    assert (length php_open = 5%nat ∧ length php_docblock = 9%nat) as [Ho Hd] by done.
    by rewrite !str_startswith_app_l by lia. }
  assert (∀ t, insertion_point (pre ++ t) = insertion_point pre) as Hpoint.
  { intros t. unfold insertion_point.
    by rewrite drop_app_le, blank_run_app by lia. }
  by rewrite !Hneeds, !Hpoint.
Qed.

Lemma run_reads_head_witness :
  run (Document (VDict (request (lit "<?php  echo 1;" ++ lit " echo 2;") (lit "a.php"))))
  = run (Document (VDict (request (lit "<?php  echo 1;" ++ lit "?>") (lit "a.php")))).
Proof.
  apply (run_reads_head _ _ (lit "<?php  echo 1;") (lit " echo 2;") (lit "?>"));
    try reflexivity; vm_compute; lia.
Defined.

(** ** The comment that is inserted *)

Lemma length_docblock (name : str) :
  length (docblock name) = (18 + length name)%nat.
Proof. unfold docblock. rewrite !length_app. simpl. lia. Qed.

Lemma docblock_slashes (name : str) (i : nat) :
  SLASH ∉ name →
  docblock name !! i = Some SLASH ↔ i = 1%nat ∨ S i = length (docblock name).
Proof.
  intros Hname. rewrite length_docblock. unfold docblock.
  destruct (decide (i < 14)%nat) as [Hi|Hi].
  - rewrite lookup_app_l by (simpl; lia).
    do 14 (destruct i as [|i];
           [simpl; split; [try (intros [=]); auto|intros [?|?]; (done || lia)]|]).
    lia.
  - rewrite lookup_app_r by (simpl; lia).
    change (length ([LF] ++ lit "/**" ++ [LF] ++ lit " * @file ")) with 14%nat.
    destruct (decide (i - 14 < length name)%nat) as [Hj|Hj].
    + rewrite lookup_app_l by done. split; [|lia].
      intros Hin. destruct Hname. by eapply list_elem_of_lookup_2.
    + rewrite lookup_app_r by lia.
      remember (i - 14 - length name)%nat as k eqn:Hk.
      do 4 (destruct k as [|k];
            [simpl; split; [try (intros [=]); right; lia|intros [?|?]; (done || lia)]|]).
      split; [done|lia].
Qed.

(** X6. The name put after [@file] holds no ['/'], so in the replacement
    of every emitted edit ['/'] stands at two places only, index 1 (the
    ['/**'] that opens the comment) and the last index; hence ['*/'], which
    closes a comment, occurs once, as the last two code points: no [file]
    can end the docblock early. *)
Theorem docblock_closes_once (input : stdin) (e : value) (r : str) :
  e ∈ emitted input →
  edit_replacement e = Some r →
  (∀ i, r !! i = Some SLASH ↔ i = 1%nat ∨ S i = length r)
  ∧ (∀ i, r !! i = Some STAR → r !! S i = Some SLASH → S (S i) = length r).
Proof.
  intros (d & s & f & _ & _ & _ & _ & ->)%emitted_inv Hr.
  rewrite edit_replacement_edit in Hr. injection Hr as <-.
  destruct (file_name_spec f) as [Hname _].
  split; [intros i; by apply docblock_slashes|].
  intros i Hstar [Hone|Hlast]%docblock_slashes; [|done..].
  injection Hone as ->. by vm_compute in Hstar.
Qed.

Lemma docblock_closes_once_witness :
  (∀ i, docblock (lit "a.php") !! i = Some SLASH
        ↔ i = 1%nat ∨ S i = length (docblock (lit "a.php")))
  ∧ (∀ i, docblock (lit "a.php") !! i = Some STAR →
          docblock (lit "a.php") !! S i = Some SLASH →
          S (S i) = length (docblock (lit "a.php"))).
Proof.
  apply (docblock_closes_once
           (Document (VDict (request (lit "<?php") (lit "src/a.php"))))
           (edit 5 (docblock (lit "a.php")))).
  - run_emits.
  - reflexivity.
Defined.

End PluginMore.
